(** * Asynchronous request lifecycle of the Uber Eats MCP server (src/server.py)

    A shallow embedding of the orchestration code of [server.py]:
    - the module-level dict [search_results] is a [gmap string string];
    - the [Context] side channel ([info], [report_progress], [error]) is a
      log of notices tagged with the request id of the originating context;
    - the browser engine [run_browser_agent] is the external collaborator:
      for a task description it calls [on_step] some number of times and
      then returns a text or raises an exception with a message;
    - [asyncio.create_task] appends the coroutine, as the list of its atomic
      effects, to the queue of the cooperative event loop; the loop runs one
      effect of any queued task at a time, interleaved with tool calls. *)

From Stdlib Require Import Lia.
From stdpp Require Import base gmap sets list strings pretty.

Open Scope string_scope.

(** ** Data model *)

(** FastMCP's [Context]; only [request_id] is used by the code. *)
Record Context := mkContext { request_id : string }.

(** What the external engine does for one task description. *)
Inductive agent_outcome :=
  | Returns (result : string)   (** [run_browser_agent] returns [result] *)
  | Raises (msg : string).      (** it raises an [Exception] with [str(e) = msg] *)

Record agent_run := mkAgentRun {
  on_step_calls : nat;          (** how many times the engine calls [on_step] *)
  agent_result : agent_outcome  (** then how it finishes *)
}.

(** [run_browser_agent], as an oracle from the task description. *)
Definition engine := string -> agent_run.

(** Notices sent through the context side channel. *)
Inductive notice :=
  | NInfo (msg : string)        (** [await context.info(msg)] *)
  | NProgress (n : nat)         (** [await context.report_progress(n)] *)
  | NError (msg : string).      (** [await context.error(msg)] *)

(** Atomic effects of a background coroutine. *)
Inductive action :=
  | ANotify (rid : string) (n : notice)   (** a notice on the context of [rid] *)
  | AWrite (key value : string).          (** [search_results[key] = value] *)

Record sys := mkSys {
  search_results : gmap string string;
  channel : list (string * notice);
  tasks : list (list action)
}.

(** The process at startup: [search_results = {}], no task. *)
Definition init : sys := mkSys ∅ [] [].

Definition exec_action (a : action) (s : sys) : sys :=
  match a with
  | ANotify rid n => mkSys (search_results s) (channel s ++ [(rid, n)]) (tasks s)
  | AWrite k v => mkSys (<[k := v]> (search_results s)) (channel s) (tasks s)
  end.

Fixpoint exec_all (l : list action) (s : sys) : sys :=
  match l with
  | [] => s
  | a :: l' => exec_all l' (exec_action a s)
  end.

(** [asyncio.create_task(coro)]: the coroutine is queued, not run. *)
Definition create_task (t : list action) (s : sys) : sys :=
  mkSys (search_results s) (channel s) (tasks s ++ [t]).

(** ** Strings of the source *)

Definition dq : string := String (Ascii.ascii_of_nat 34) EmptyString.
Definition nl : string := String (Ascii.ascii_of_nat 10) EmptyString.
Definition str_nat (n : nat) : string := pretty n.

(** The f-string [task] of [find_menu_options]. *)
Definition search_task (search_term : string) : string :=
  nl ++ "0. Start by going to: https://www.ubereats.com" ++ nl
  ++ "1. Type " ++ dq ++ search_term ++ dq ++ " in the global search bar and press enter" ++ nl
  ++ "2. Go to the first search result (this is the most popular restaurant)." ++ nl
  ++ "3. When you can see the menu options for the resturant, we need to use the specific search input for the resturant located under the banned (identify it by the placeholder "
  ++ dq ++ "Search in [restaurant name]" ++ dq ++ nl
  ++ "4. Click the input field and type " ++ dq ++ search_term ++ dq ++ ", then press enter" ++ nl
  ++ "5. Check for menu options related to " ++ dq ++ search_term ++ dq ++ nl
  ++ "6. Get the name, url and price of the top 3 items related to " ++ dq ++ search_term ++ dq
  ++ ". URL is very important" ++ nl.

(** The f-string [task] of [order_food]. *)
Definition order_task (item_url : string) : string :=
  nl ++ "1. Go to " ++ item_url ++ nl
  ++ "2. Click " ++ dq ++ "Add to order" ++ dq ++ nl
  ++ "3. Wait 3 seconds" ++ nl
  ++ "4. Click " ++ dq ++ "Go to checkout" ++ dq ++ nl
  ++ "5. If there are upsell modals, click " ++ dq ++ "Skip" ++ dq ++ nl
  ++ "6. Click " ++ dq ++ "Place order" ++ dq ++ nl.

(** Line 60: the value stored while the search is in progress. *)
Definition pending_msg (search_term : string) : string :=
  "Search for '" ++ search_term ++ "' in progress. Check back in 30 seconds".

(** Line 66: the acknowledgement of [find_menu_options]. *)
Definition find_ack (search_term rid : string) : string :=
  "Search for '" ++ search_term
  ++ "' started. Please wait for 3 minutes, then you can retrieve results using the resource URI: resource://search_results/"
  ++ rid ++ ". Use a terminal sleep statement to wait for 2 minutes.".

(** Line 193: the acknowledgement of [order_food]. *)
Definition order_ack (item_name : string) : string :=
  "Order for '" ++ item_name ++ "' started. Your order is being processed.".

(** Line 97: unknown id, resource [get_search_results]. *)
Definition resource_not_found (rid : string) : string :=
  "No search results found for request ID: " ++ rid.

(** Line 111: unknown id, tool [get_search_results_by_id]. *)
Definition tool_not_found_hint : string :=
  ". Perhaps you need to wait for 2 more minutes before retrieving results, if you already have retried, then the search may have failed.".
Definition tool_not_found (rid : string) : string :=
  "No search results found for request ID: " ++ rid ++ tool_not_found_hint.

(** ** Background runners *)

(** The nested [step_handler] of [perform_search] (lines 73-77):
    [step_count += 1], then an info notice and a progress notice. *)
Definition search_step_handler (context : Context) (step_count : nat)
  : nat * list action :=
  let step_count := S step_count in
  (step_count,
   [ANotify (request_id context) (NInfo ("Step " ++ str_nat step_count ++ " completed"));
    ANotify (request_id context) (NProgress step_count)]).

(** The nested [step_handler] of [perform_order] (lines 200-204). *)
Definition order_step_handler (context : Context) (step_count : nat)
  : nat * list action :=
  let step_count := S step_count in
  (step_count,
   [ANotify (request_id context) (NInfo ("Order step " ++ str_nat step_count ++ " completed"));
    ANotify (request_id context) (NProgress step_count)]).

(** The engine invokes [on_step] [n] times; the handler threads the
    [nonlocal step_count]. *)
Fixpoint call_on_step (handler : nat -> nat * list action) (n step_count : nat)
  : nat * list action :=
  match n with
  | 0 => (step_count, [])
  | S n' =>
      let '(c1, a1) := handler step_count in
      let '(c2, a2) := call_on_step handler n' c1 in
      (c2, (a1 ++ a2)%list)
  end.

(** [perform_search] (lines 68-86). *)
Definition perform_search (eng : engine) (rid search_term task : string)
  (context : Context) : list action :=
  let step_count := 0 in
  let run := eng task in
  let '(_, steps) := call_on_step (search_step_handler context) (on_step_calls run) step_count in
  (steps ++
  match agent_result run with
  | Returns result => [AWrite rid result]
  | Raises e =>
      [AWrite rid ("Error: " ++ e);
       ANotify (request_id context)
         (NError ("Error searching for '" ++ search_term ++ "': " ++ e))]
  end)%list.

(** [perform_order] (lines 195-215): its effects and its return value. *)
Definition perform_order (eng : engine) (restaurant_url item_name task : string)
  (context : Context) : list action * string :=
  let step_count := 0 in
  let run := eng task in
  let '(_, steps) := call_on_step (order_step_handler context) (on_step_calls run) step_count in
  match agent_result run with
  | Returns result =>
      ((steps ++ [ANotify (request_id context)
                   (NInfo ("Order for '" ++ item_name ++ "' has been placed successfully!"))])%list,
       result)
  | Raises e =>
      let error_msg := "Error ordering '" ++ item_name ++ "': " ++ e in
      ((steps ++ [ANotify (request_id context) (NError error_msg)])%list, error_msg)
  end.

(** ** Tools and resource *)

(** [find_menu_options] (lines 41-66): store the pending message, then
    [asyncio.create_task(perform_search(...))], then return. *)
Definition find_menu_options (eng : engine) (search_term : string) (context : Context)
  (s : sys) : string * sys :=
  let task := search_task search_term in
  let s1 := mkSys (<[request_id context := pending_msg search_term]> (search_results s))
                  (channel s) (tasks s) in
  let s2 := create_task (perform_search eng (request_id context) search_term task context) s1 in
  (find_ack search_term (request_id context), s2).

(** [order_food] (lines 169-193): the coroutine object is handed to
    [create_task]; its return value is never awaited. *)
Definition order_food (eng : engine) (item_url item_name : string) (context : Context)
  (s : sys) : string * sys :=
  let task := order_task item_url in
  let s1 := create_task (fst (perform_order eng item_url item_name task context)) s in
  (order_ack item_name, s1).

(** [get_search_results], resource [resource://search_results/{request_id}]. *)
Definition get_search_results (request_id : string) (s : sys) : string :=
  match search_results s !! request_id with
  | None => resource_not_found request_id
  | Some v => v
  end.

(** Tool [get_search_results_by_id]. *)
Definition get_search_results_by_id (request_id : string) (s : sys) : string :=
  match search_results s !! request_id with
  | None => tool_not_found request_id
  | Some v => v
  end.

(** Tool [get_all_search_results] (both identical definitions). *)
Definition get_all_search_results (s : sys) : gmap string string :=
  search_results s.

(** ** The event loop *)

(** A call from the client, with the engine's behaviour for dispatches. *)
Inductive call :=
  | CFindMenuOptions (eng : engine) (search_term : string) (context : Context)
  | COrderFood (eng : engine) (item_url item_name : string) (context : Context)
  | CGetSearchResults (request_id : string)
  | CGetSearchResultsById (request_id : string)
  | CGetAllSearchResults.

Inductive response :=
  | RStr (r : string)
  | RDict (d : gmap string string).

(** A handler runs to its return without an [await], hence atomically. *)
Definition handle_call (c : call) (s : sys) : response * sys :=
  match c with
  | CFindMenuOptions eng t ctx => let '(r, s') := find_menu_options eng t ctx s in (RStr r, s')
  | COrderFood eng u n ctx => let '(r, s') := order_food eng u n ctx s in (RStr r, s')
  | CGetSearchResults rid => (RStr (get_search_results rid s), s)
  | CGetSearchResultsById rid => (RStr (get_search_results_by_id rid s), s)
  | CGetAllSearchResults => (RDict (get_all_search_results s), s)
  end.

Inductive label :=
  | LCall (c : call) (r : response)
  | LTask (a : action).

Inductive step : sys -> label -> sys -> Prop :=
  | step_call (s : sys) (c : call) :
      step s (LCall c (fst (handle_call c s))) (snd (handle_call c s))
  | step_task (s : sys) (l1 l2 : list (list action)) (a : action) (t : list action) :
      tasks s = (l1 ++ (a :: t) :: l2)%list ->
      step s (LTask a)
        (exec_action a (mkSys (search_results s) (channel s) (l1 ++ t :: l2)%list)).

Inductive steps : sys -> list label -> sys -> Prop :=
  | steps_refl (s : sys) : steps s [] s
  | steps_cons (s s' s'' : sys) (l : label) (ls : list label) :
      step s l s' -> steps s' ls s'' -> steps s (l :: ls) s''.

(** Request ids dispatched by a call. *)
Definition searched_id (c : call) : option string :=
  match c with
  | CFindMenuOptions _ _ ctx => Some (request_id ctx)
  | _ => None
  end.

Definition dispatched_id (c : call) : option string :=
  match c with
  | CFindMenuOptions _ _ ctx => Some (request_id ctx)
  | COrderFood _ _ _ ctx => Some (request_id ctx)
  | _ => None
  end.

Definition calls_of (ls : list label) : list call :=
  omap (fun l => match l with LCall c _ => Some c | LTask _ => None end) ls.

Fixpoint write_count (l : list action) : nat :=
  match l with
  | [] => 0
  | AWrite _ _ :: l' => S (write_count l')
  | ANotify _ _ :: l' => write_count l'
  end.

Definition writes_key (k : string) (l : list action) : Prop :=
  ∃ v, AWrite k v ∈ l.

Fixpoint progress_values (l : list action) : list nat :=
  match l with
  | [] => []
  | ANotify _ (NProgress n) :: l' => n :: progress_values l'
  | _ :: l' => progress_values l'
  end.

(** The value [perform_search] finally stores for an engine outcome. *)
Definition search_outcome (r : agent_outcome) : string :=
  match r with
  | Returns result => result
  | Raises e => "Error: " ++ e
  end.

(** ** Concrete runs *)

Definition eng_ok : engine := fun _ => mkAgentRun 3 (Returns "Pizza, $9").
Definition eng_fail : engine := fun _ => mkAgentRun 2 (Raises "timeout").
Definition ctx1 : Context := mkContext "1".

Example progress_three :
  progress_values (perform_search eng_ok "1" "pizza" (search_task "pizza") ctx1) = [1; 2; 3].
Proof. reflexivity. Qed.

Example step_message_two :
  perform_search eng_fail "1" "pizza" (search_task "pizza") ctx1 !! 2%nat
  = Some (ANotify "1" (NInfo "Step 2 completed")).
Proof. reflexivity. Qed.

Example pending_after_find :
  get_search_results_by_id "1" (snd (find_menu_options eng_ok "pizza" ctx1 init))
  = "Search for 'pizza' in progress. Check back in 30 seconds".
Proof. reflexivity. Qed.

Example failed_after_run :
  let s := snd (find_menu_options eng_fail "pizza" ctx1 init) in
  get_search_results_by_id "1"
    (exec_all (perform_search eng_fail "1" "pizza" (search_task "pizza") ctx1) s)
  = "Error: timeout".
Proof. reflexivity. Qed.

(** ** Runner lemmas *)

Section Counter.
Variable f : nat -> list action.
Variable handler : nat -> nat * list action.
Hypothesis handler_spec : forall c, handler c = (S c, f (S c)).

Lemma call_on_step_spec (n c : nat) :
  call_on_step handler n c = (n + c, flat_map f (seq (S c) n)).
Proof.
  revert c. induction n as [|n IH]; intros c; simpl; [done|].
  rewrite handler_spec, IH. f_equal. lia.
Qed.
End Counter.

Lemma search_step_handler_spec (context : Context) (c : nat) :
  search_step_handler context c =
  (S c, [ANotify (request_id context) (NInfo ("Step " ++ str_nat (S c) ++ " completed"));
         ANotify (request_id context) (NProgress (S c))]).
Proof. reflexivity. Qed.

Lemma order_step_handler_spec (context : Context) (c : nat) :
  order_step_handler context c =
  (S c, [ANotify (request_id context) (NInfo ("Order step " ++ str_nat (S c) ++ " completed"));
         ANotify (request_id context) (NProgress (S c))]).
Proof. reflexivity. Qed.

Definition search_step_notices (context : Context) (k : nat) : list action :=
  [ANotify (request_id context) (NInfo ("Step " ++ str_nat k ++ " completed"));
   ANotify (request_id context) (NProgress k)].

Definition order_step_notices (context : Context) (k : nat) : list action :=
  [ANotify (request_id context) (NInfo ("Order step " ++ str_nat k ++ " completed"));
   ANotify (request_id context) (NProgress k)].

Lemma perform_search_unfold (eng : engine) (rid search_term task : string) (context : Context) :
  perform_search eng rid search_term task context =
  (flat_map (search_step_notices context) (seq 1 (on_step_calls (eng task))) ++
   match agent_result (eng task) with
   | Returns result => [AWrite rid result]
   | Raises e =>
       [AWrite rid ("Error: " ++ e);
        ANotify (request_id context)
          (NError ("Error searching for '" ++ search_term ++ "': " ++ e))]
   end)%list.
Proof.
  unfold perform_search.
  rewrite (call_on_step_spec (search_step_notices context)) by apply search_step_handler_spec.
  reflexivity.
Qed.

Lemma perform_order_unfold (eng : engine) (url item_name task : string) (context : Context) :
  fst (perform_order eng url item_name task context) =
  (flat_map (order_step_notices context) (seq 1 (on_step_calls (eng task))) ++
   match agent_result (eng task) with
   | Returns _ =>
       [ANotify (request_id context)
          (NInfo ("Order for '" ++ item_name ++ "' has been placed successfully!"))]
   | Raises e =>
       [ANotify (request_id context) (NError ("Error ordering '" ++ item_name ++ "': " ++ e))]
   end)%list.
Proof.
  unfold perform_order.
  rewrite (call_on_step_spec (order_step_notices context)) by apply order_step_handler_spec.
  destruct (agent_result (eng task)); reflexivity.
Qed.

Lemma write_count_app (l1 l2 : list action) :
  write_count (l1 ++ l2) = write_count l1 + write_count l2.
Proof. induction l1 as [|[] l1 IH]; simpl; lia. Qed.

Lemma write_count_notices (g : nat -> list action) (ks : list nat) :
  (forall k a, a ∈ g k -> exists r n, a = ANotify r n) ->
  write_count (flat_map g ks) = 0.
Proof.
  intros Hg. induction ks as [|k ks IH]; simpl; [done|].
  rewrite write_count_app, IH.
  assert (Hk : forall l, (forall a, a ∈ l -> exists r n, a = ANotify r n) -> write_count l = 0).
  { induction l as [|a l IHl]; intros Hl; simpl; [done|].
    destruct (Hl a) as (r & n & ->); [set_solver|]. apply IHl. set_solver. }
  rewrite Hk; [done|]. apply Hg.
Qed.

Lemma search_steps_no_write (context : Context) (ks : list nat) :
  write_count (flat_map (search_step_notices context) ks) = 0.
Proof.
  apply write_count_notices. intros k a Ha.
  unfold search_step_notices in Ha. set_solver.
Qed.

Lemma order_steps_no_write (context : Context) (ks : list nat) :
  write_count (flat_map (order_step_notices context) ks) = 0.
Proof.
  apply write_count_notices. intros k a Ha.
  unfold order_step_notices in Ha. set_solver.
Qed.

Lemma write_count_0_no_write (l : list action) (k v : string) :
  write_count l = 0 -> AWrite k v ∉ l.
Proof.
  induction l as [|[] l IH]; simpl; intros H; [set_solver| |lia].
  rewrite elem_of_cons. intros [Heq|Hin]; [discriminate|]. by apply IH.
Qed.

Lemma exec_all_app (l1 l2 : list action) (s : sys) :
  exec_all (l1 ++ l2) s = exec_all l2 (exec_all l1 s).
Proof. revert s. induction l1 as [|a l1 IH]; intros s; simpl; auto. Qed.

Lemma exec_all_no_write (l : list action) (s : sys) :
  write_count l = 0 -> search_results (exec_all l s) = search_results s.
Proof.
  revert s. induction l as [|[] l IH]; intros s H; simpl in *; [done| |lia].
  by rewrite IH.
Qed.

Lemma perform_search_writes (eng : engine) (rid search_term task : string)
  (context : Context) (k v : string) :
  AWrite k v ∈ perform_search eng rid search_term task context ->
  k = rid /\ v = search_outcome (agent_result (eng task)).
Proof.
  rewrite perform_search_unfold, elem_of_app. intros [Hin|Hin].
  - exfalso. by eapply write_count_0_no_write; [apply search_steps_no_write|].
  - destruct (agent_result (eng task)); simpl;
      rewrite !elem_of_cons, ?elem_of_nil in Hin; naive_solver.
Qed.

Lemma perform_order_no_write (eng : engine) (url item_name task : string) (context : Context) :
  write_count (fst (perform_order eng url item_name task context)) = 0.
Proof.
  rewrite perform_order_unfold, write_count_app, order_steps_no_write.
  by destruct (agent_result (eng task)).
Qed.

Lemma exec_all_perform_search (eng : engine) (rid search_term task : string)
  (context : Context) (s : sys) :
  search_results (exec_all (perform_search eng rid search_term task context) s) =
  <[rid := search_outcome (agent_result (eng task))]> (search_results s).
Proof.
  rewrite perform_search_unfold, exec_all_app.
  destruct (agent_result (eng task)); simpl; by rewrite exec_all_no_write by apply search_steps_no_write.
Qed.

Lemma exec_action_no_write (a : action) (s : sys) :
  write_count [a] = 0 -> search_results (exec_action a s) = search_results s.
Proof. destruct a; simpl; [done|lia]. Qed.

(** ** Event-loop invariants *)

(** Every write still queued targets a key already in [search_results]. *)
Definition tasks_write_known (s : sys) : Prop :=
  forall t, t ∈ tasks s -> forall k v, AWrite k v ∈ t -> is_Some (search_results s !! k).

(** No queued task writes [rid]: the request id is not reused. *)
Definition no_pending_write (rid : string) (s : sys) : Prop :=
  forall t, t ∈ tasks s -> ~ writes_key rid t.

Definition label_searched (l : label) (k : string) : Prop :=
  exists c r, l = LCall c r /\ searched_id c = Some k.

Lemma tasks_after_task_step (l1 l2 : list (list action)) (a : action) (t x : list action) :
  x ∈ (l1 ++ t :: l2)%list -> x ∈ (l1 ++ (a :: t) :: l2)%list \/ x = t.
Proof. rewrite !elem_of_app, !elem_of_cons. naive_solver. Qed.

Lemma step_tasks_write_known (s s' : sys) (l : label) :
  step s l s' -> tasks_write_known s ->
  tasks_write_known s' /\
  (forall k, is_Some (search_results s' !! k) <-> is_Some (search_results s !! k) \/ label_searched l k).
Proof.
  intros Hstep Hinv. destruct Hstep as [s c|s l1 l2 a t Htasks].
  - destruct c as [eng term ctx|eng url name ctx|rid|rid|]; simpl.
    + split.
      * intros t Ht k v Hkv. simpl in *.
        rewrite elem_of_app, elem_of_cons, elem_of_nil in Ht.
        destruct Ht as [Ht|[->|[]]].
        -- destruct (decide (k = request_id ctx)) as [->|Hne].
           ++ rewrite lookup_insert_eq. by eexists.
           ++ rewrite lookup_insert_ne by congruence. by eapply Hinv.
        -- apply perform_search_writes in Hkv as [-> _].
           rewrite lookup_insert_eq. by eexists.
      * intros k. unfold label_searched.
        destruct (decide (k = request_id ctx)) as [->|Hne].
        -- rewrite lookup_insert_eq. split; [intros _; right; by do 2 eexists|by eexists].
        -- rewrite lookup_insert_ne by congruence. split; [by left|].
           intros [H|(c & r & Heq & Hs)]; [done|]. inversion Heq; subst. simpl in Hs. congruence.
    + split.
      * intros t Ht k v Hkv. simpl in *.
        rewrite elem_of_app, elem_of_cons, elem_of_nil in Ht.
        destruct Ht as [Ht|[->|[]]]; [by eapply Hinv|].
        exfalso. by eapply write_count_0_no_write; [apply perform_order_no_write|].
      * intros k. unfold label_searched. split; [by left|].
        intros [H|(c & r & Heq & Hs)]; [done|]. inversion Heq; subst. done.
    + split; [done|]. intros k. unfold label_searched. split; [by left|].
      intros [H|(c & r & Heq & Hs)]; [done|]. inversion Heq; subst. done.
    + split; [done|]. intros k. unfold label_searched. split; [by left|].
      intros [H|(c & r & Heq & Hs)]; [done|]. inversion Heq; subst. done.
    + split; [done|]. intros k. unfold label_searched. split; [by left|].
      intros [H|(c & r & Heq & Hs)]; [done|]. inversion Heq; subst. done.
  - assert (Hold : forall x, x ∈ (l1 ++ t :: l2)%list ->
                   forall k v, AWrite k v ∈ x -> is_Some (search_results s !! k)).
    { intros x Hx k v Hkv. apply (tasks_after_task_step l1 l2 a) in Hx. destruct Hx as [Hx| ->].
      - rewrite <- Htasks in Hx. by eapply Hinv.
      - refine (Hinv (a :: t) _ k v _); [rewrite Htasks; set_solver|set_solver]. }
    assert (Hlab : forall k, ~ label_searched (LTask a) k).
    { intros k (c & r & Heq & _). discriminate. }
    destruct a as [rid n|k v]; cbn [exec_action search_results tasks channel].
    + split; [done|]. intros k. split; [by left|]. intros [H|H]; [done|]. by apply Hlab in H.
    + assert (Hk : is_Some (search_results s !! k)).
      { refine (Hinv (AWrite k v :: t) _ k v _); [rewrite Htasks; set_solver|set_solver]. }
      split.
      * intros x Hx k' v' Hkv. cbn [search_results tasks] in *. destruct (decide (k' = k)) as [->|Hne].
        -- rewrite lookup_insert_eq. by eexists.
        -- rewrite lookup_insert_ne by congruence. by eapply Hold.
      * intros k'. destruct (decide (k' = k)) as [->|Hne].
        -- rewrite lookup_insert_eq. split; [by left|by eexists].
        -- rewrite lookup_insert_ne by congruence. split; [by left|].
           intros [H|H]; [done|]. by apply Hlab in H.
Qed.

Lemma calls_of_cons (l : label) (ls : list label) :
  calls_of (l :: ls) =
  match l with LCall c _ => c :: calls_of ls | LTask _ => calls_of ls end.
Proof. by destruct l. Qed.

Lemma steps_tasks_write_known (s s' : sys) (ls : list label) :
  steps s ls s' -> tasks_write_known s ->
  tasks_write_known s' /\
  (forall k, is_Some (search_results s' !! k) <->
             is_Some (search_results s !! k) \/
             exists c, c ∈ calls_of ls /\ searched_id c = Some k).
Proof.
  induction 1 as [s|s s1 s2 l ls Hstep Hsteps IH]; intros Hinv.
  - split; [done|]. intros k. split; [by left|]. intros [H|(c & Hc & _)]; [done|set_solver].
  - destruct (step_tasks_write_known _ _ _ Hstep Hinv) as [Hinv1 Hdom1].
    destruct (IH Hinv1) as [Hinv2 Hdom2]. split; [done|].
    intros k. rewrite Hdom2, Hdom1, calls_of_cons. unfold label_searched.
    destruct l as [c r|a]; split.
    + intros [[H|(c' & r' & Heq & Hs)]|(c' & Hc & Hs)]; [by left| |].
      * inversion Heq; subst. right. exists c'. split; [set_solver|done].
      * right. exists c'. split; [set_solver|done].
    + intros [H|(c' & Hc & Hs)]; [by left; left|].
      rewrite elem_of_cons in Hc. destruct Hc as [->|Hc].
      * left. right. by do 2 eexists.
      * right. by exists c'.
    + intros [[H|(c' & r' & Heq & Hs)]|H]; [by left|discriminate|by right].
    + intros [H|H]; [by left; left|by right].
Qed.

Lemma init_tasks_write_known : tasks_write_known init.
Proof. intros t Ht. simpl in Ht. set_solver. Qed.

Lemma step_persist (s s' : sys) (l : label) (rid v : string) :
  step s l s' ->
  search_results s !! rid = Some v ->
  no_pending_write rid s ->
  ~ label_searched l rid ->
  search_results s' !! rid = Some v /\ no_pending_write rid s' /\
  (forall c r, l = LCall c r ->
     c = CGetSearchResultsById rid \/ c = CGetSearchResults rid -> r = RStr v).
Proof.
  intros Hstep Hv Hnw Hns. destruct Hstep as [s c|s l1 l2 a t Htasks].
  - destruct c as [eng term ctx|eng url name ctx|rid'|rid'|]; simpl.
    + assert (Hne : request_id ctx <> rid).
      { intros <-. apply Hns. by do 2 eexists. }
      split; [by rewrite lookup_insert_ne|]. split; [|intros c r Heq [-> | ->]; by inversion Heq].
      intros t' Ht' (v' & Hw). simpl in Ht'.
      rewrite elem_of_app, elem_of_cons, elem_of_nil in Ht'.
      destruct Ht' as [Ht'|[->|[]]]; [apply (Hnw t' Ht'); by exists v'|].
      by apply perform_search_writes in Hw as [-> _].
    + split; [done|]. split; [|intros c r Heq [-> | ->]; by inversion Heq].
      intros t' Ht' (v' & Hw). simpl in Ht'.
      rewrite elem_of_app, elem_of_cons, elem_of_nil in Ht'.
      destruct Ht' as [Ht'|[->|[]]]; [apply (Hnw t' Ht'); by exists v'|].
      by eapply write_count_0_no_write; [apply perform_order_no_write|].
    + split; [done|]. split; [done|]. intros c r Heq Hc. inversion Heq; subst.
      destruct Hc as [Hc|Hc]; inversion Hc; subst.
      unfold get_search_results. by rewrite Hv.
    + split; [done|]. split; [done|]. intros c r Heq Hc. inversion Heq; subst.
      destruct Hc as [Hc|Hc]; inversion Hc; subst.
      unfold get_search_results_by_id. by rewrite Hv.
    + split; [done|]. split; [done|]. intros c r Heq [Hc|Hc]; inversion Heq; subst; discriminate.
  - assert (Hnw' : no_pending_write rid (mkSys (search_results s) (channel s) (l1 ++ t :: l2)%list)).
    { intros x Hx Hw. simpl in Hx.
      apply (tasks_after_task_step l1 l2 a) in Hx. destruct Hx as [Hx| ->].
      - rewrite <- Htasks in Hx. by apply (Hnw x).
      - apply (Hnw (a :: t)); [rewrite Htasks; set_solver|].
        destruct Hw as (v' & Hw). exists v'. set_solver. }
    destruct a as [rid' n|k v']; cbn [exec_action search_results tasks channel].
    + split; [done|]. split; [done|]. by intros c r Heq.
    + assert (Hk : k <> rid).
      { intros ->. apply (Hnw (AWrite rid v' :: t)); [rewrite Htasks; set_solver|].
        exists v'. set_solver. }
      split; [by rewrite lookup_insert_ne|]. split; [|by intros c r Heq].
      intros x Hx. apply (Hnw' x Hx).
Qed.

Lemma steps_persist (s s' : sys) (ls : list label) (rid v : string) :
  steps s ls s' ->
  search_results s !! rid = Some v ->
  no_pending_write rid s ->
  (forall c, c ∈ calls_of ls -> searched_id c <> Some rid) ->
  search_results s' !! rid = Some v /\
  (forall c r, LCall c r ∈ ls ->
     c = CGetSearchResultsById rid \/ c = CGetSearchResults rid -> r = RStr v).
Proof.
  induction 1 as [s|s s1 s2 l ls Hstep Hsteps IH]; intros Hv Hnw Hcalls.
  - split; [done|]. intros c r Hin. set_solver.
  - assert (Hns : ~ label_searched l rid).
    { intros (c & r & -> & Hs). apply (Hcalls c); [|done]. rewrite calls_of_cons. set_solver. }
    destruct (step_persist _ _ _ _ _ Hstep Hv Hnw Hns) as (Hv1 & Hnw1 & Hr1).
    assert (Hcalls' : forall c, c ∈ calls_of ls -> searched_id c <> Some rid).
    { intros c Hc. apply Hcalls. rewrite calls_of_cons. destruct l; set_solver. }
    destruct (IH Hv1 Hnw1 Hcalls') as [Hv2 Hr2]. split; [done|].
    intros c r Hin Hc. rewrite elem_of_cons in Hin. destruct Hin as [Hin|Hin].
    + by eapply Hr1.
    + by eapply Hr2.
Qed.

Lemma progress_values_app (l1 l2 : list action) :
  progress_values (l1 ++ l2) = (progress_values l1 ++ progress_values l2)%list.
Proof. induction l1 as [|[? []|] l1 IH]; simpl; by rewrite ?IH. Qed.

Lemma progress_values_search_steps (context : Context) (ks : list nat) :
  progress_values (flat_map (search_step_notices context) ks) = ks.
Proof. induction ks as [|k ks IH]; simpl; by rewrite ?IH. Qed.

Lemma progress_values_order_steps (context : Context) (ks : list nat) :
  progress_values (flat_map (order_step_notices context) ks) = ks.
Proof. induction ks as [|k ks IH]; simpl; by rewrite ?IH. Qed.

Lemma write_count_0_notify (l : list action) (a : action) :
  write_count l = 0 -> a ∈ l -> exists rid n, a = ANotify rid n.
Proof.
  intros H Ha. destruct a as [rid n|k v]; [by exists rid, n|].
  exfalso. by eapply write_count_0_no_write.
Qed.

Lemma str_app_assoc (a b c : string) : (a ++ b) ++ c = a ++ (b ++ c).
Proof. induction a as [|ch a IH]; [reflexivity|]. exact (f_equal (String ch) IH). Qed.

Lemma error_not_pending (m t : string) : "Error: " ++ m <> pending_msg t.
Proof. discriminate. Qed.

Lemma tool_not_found_not_pending (rid t : string) : tool_not_found rid <> pending_msg t.
Proof. discriminate. Qed.

Lemma resource_not_found_not_pending (rid t : string) : resource_not_found rid <> pending_msg t.
Proof. discriminate. Qed.

(** ** Claims *)

(** * C1 (corrected), counterexample: a [perform_order] run makes no
    write to [search_results], not exactly one. *)
Lemma C1_order_runner_no_write :
  write_count (fst (perform_order eng_ok "https://ubereats.com/item" "pad thai"
                      (order_task "https://ubereats.com/item") ctx1)) <> 1.
Proof. vm_compute. discriminate. Qed.

(** * C1 (corrected, amended): every [perform_search] run, on the success
    and on the failure path, makes exactly one write to [search_results],
    under its request id, of the engine's text or of ["Error: " + message],
    so the entry ends terminal; [perform_order] makes no write at all, and
    [order_food] stores no pending entry either. *)
Theorem C1_search_runner_single_write (eng : engine) (rid search_term task : string)
  (context : Context) (url item_name task' : string) (context' : Context) :
  let acts := perform_search eng rid search_term task context in
  write_count acts = 1 /\
  (forall k v, AWrite k v ∈ acts -> k = rid /\ v = search_outcome (agent_result (eng task))) /\
  (forall s, search_results (exec_all acts s) !! rid =
             Some (search_outcome (agent_result (eng task)))) /\
  write_count (fst (perform_order eng url item_name task' context')) = 0 /\
  (forall s, search_results (snd (order_food eng url item_name context' s)) = search_results s).
Proof.
  intros acts. split; [|split; [|split; [|split]]].
  - unfold acts. rewrite perform_search_unfold, write_count_app, search_steps_no_write.
    by destruct (agent_result (eng task)).
  - apply perform_search_writes.
  - intros s. unfold acts. by rewrite exec_all_perform_search, lookup_insert_eq.
  - apply perform_order_no_write.
  - done.
Qed.

(** * C2 (corrected), counterexample: right after [order_food] on a fresh
    process, [get_search_results_by_id] for its request id gives the
    unknown-identity response. *)
Lemma C2_order_not_pending :
  get_search_results_by_id "1"
    (snd (order_food eng_ok "https://ubereats.com/item" "pad thai" ctx1 init))
  = tool_not_found "1".
Proof. reflexivity. Qed.

(** * C2 (corrected, amended): [find_menu_options] stores the pending message
    under its request id when it queues [perform_search], so both retrievals
    right after it return the pending message, not an unknown-identity
    response; [order_food] does not touch [search_results], so a retrieval
    right after it returns what it returned before. *)
Theorem C2_find_then_pending (eng : engine) (search_term : string) (context : Context)
  (s : sys) (eng' : engine) (url item_name : string) (context' : Context) (rid : string) :
  let s1 := snd (handle_call (CFindMenuOptions eng search_term context) s) in
  fst (handle_call (CGetSearchResultsById (request_id context)) s1) = RStr (pending_msg search_term) /\
  fst (handle_call (CGetSearchResults (request_id context)) s1) = RStr (pending_msg search_term) /\
  pending_msg search_term <> tool_not_found (request_id context) /\
  pending_msg search_term <> resource_not_found (request_id context) /\
  get_search_results_by_id rid (snd (handle_call (COrderFood eng' url item_name context') s)) =
  get_search_results_by_id rid s.
Proof.
  intros s1. split; [|split; [|split; [|split]]].
  - simpl. unfold get_search_results_by_id. simpl. by rewrite lookup_insert_eq.
  - simpl. unfold get_search_results. simpl. by rewrite lookup_insert_eq.
  - intros H. by apply (tool_not_found_not_pending (request_id context) search_term).
  - intros H. by apply (resource_not_found_not_pending (request_id context) search_term).
  - done.
Qed.

(** * C3 (corrected), counterexample: [order_food] dispatches request id
    ["1"], yet ["1"] is not a key of [get_all_search_results] afterwards. *)
Lemma C3_order_id_not_listed :
  let c := COrderFood eng_ok "https://ubereats.com/item" "pad thai" ctx1 in
  dispatched_id c = Some "1" /\
  get_all_search_results (snd (handle_call c init)) !! "1" = None.
Proof. split; reflexivity. Qed.

(** * C3 (corrected, amended): in every run of the server from startup,
    [get_all_search_results] returns [search_results] itself, and its keys
    are exactly the request ids submitted through [find_menu_options];
    ids of [order_food] calls are not among them. *)
Theorem C3_get_all_keys (ls : list label) (s : sys) :
  steps init ls s ->
  fst (handle_call CGetAllSearchResults s) = RDict (search_results s) /\
  (forall k, is_Some (get_all_search_results s !! k) <->
             exists c, c ∈ calls_of ls /\ searched_id c = Some k).
Proof.
  intros Hsteps. split; [done|].
  destruct (steps_tasks_write_known _ _ _ Hsteps init_tasks_write_known) as [_ Hdom].
  intros k. unfold get_all_search_results. rewrite Hdom. simpl.
  rewrite lookup_empty. split; [intros [H|H]; [by destruct H|done]|by right].
Qed.

Lemma C3_get_all_keys_witness :
  let c := CFindMenuOptions eng_ok "pizza" ctx1 in
  let s := snd (handle_call c init) in
  steps init [LCall c (fst (handle_call c init))] s /\
  is_Some (get_all_search_results s !! "1").
Proof.
  intros c s.
  assert (Hs : steps init [LCall c (fst (handle_call c init))] s).
  { econstructor; [apply step_call|apply steps_refl]. }
  split; [exact Hs|].
  apply (proj2 (C3_get_all_keys _ _ Hs) "1"). exists c. split; [simpl; left|reflexivity].
Defined.

(** * C4 (confirmed): when the engine raises with message [M],
    [perform_search] catches it, makes its one write [Error: M] under the
    request id and sends an error notice carrying [M]; once that entry is
    stored and the id is not reused, every later retrieval of the id
    returns [Error: M], which contains [M] and is not a pending message. *)
Theorem C4_failure_recorded (eng : engine) (rid search_term task : string)
  (context : Context) (M : string) :
  agent_result (eng task) = Raises M ->
  let acts := perform_search eng rid search_term task context in
  write_count acts = 1 /\
  AWrite rid ("Error: " ++ M) ∈ acts /\
  ANotify (request_id context) (NError ("Error searching for '" ++ search_term ++ "': " ++ M)) ∈ acts /\
  (forall s, search_results (exec_all acts s) !! rid = Some ("Error: " ++ M)) /\
  (forall s ls s',
     search_results s !! rid = Some ("Error: " ++ M) ->
     no_pending_write rid s ->
     steps s ls s' ->
     (forall c, c ∈ calls_of ls -> searched_id c <> Some rid) ->
     forall c r, LCall c r ∈ ls ->
       c = CGetSearchResultsById rid \/ c = CGetSearchResults rid ->
       r = RStr ("Error: " ++ M) /\ (forall t, "Error: " ++ M <> pending_msg t)).
Proof.
  intros Hres acts. split; [|split; [|split; [|split]]].
  - unfold acts. rewrite perform_search_unfold, write_count_app, search_steps_no_write, Hres.
    done.
  - unfold acts. rewrite perform_search_unfold, Hres. set_solver.
  - unfold acts. rewrite perform_search_unfold, Hres. set_solver.
  - intros s. unfold acts. rewrite exec_all_perform_search, Hres. by rewrite lookup_insert_eq.
  - intros s ls s' Hv Hnw Hsteps Hcalls c r Hin Hc.
    destruct (steps_persist _ _ _ _ _ Hsteps Hv Hnw Hcalls) as [_ Hr].
    split; [by eapply Hr|]. apply error_not_pending.
Qed.

Lemma C4_failure_recorded_witness :
  agent_result (eng_fail (search_task "pizza")) = Raises "timeout" /\
  AWrite "1" ("Error: " ++ "timeout")
    ∈ perform_search eng_fail "1" "pizza" (search_task "pizza") ctx1.
Proof.
  split; [reflexivity|].
  exact (proj1 (proj2 (C4_failure_recorded eng_fail "1" "pizza" (search_task "pizza") ctx1
                         "timeout" eq_refl))).
Defined.

(** * C5 (confirmed): in one run of [perform_search] or [perform_order]
    whose engine calls [on_step] [n] times, the counter starts at 0 and ends
    at [n], the run begins with one info notice ["Step k completed"]
    (["Order step k completed"] for orders) followed by progress [k] for
    [k = 1 .. n], and the progress values it reports are exactly [1 .. n]. *)
Theorem C5_step_progress (eng : engine) (rid search_term task : string) (context : Context)
  (url item_name task' : string) (context' : Context) :
  let n := on_step_calls (eng task) in
  let n' := on_step_calls (eng task') in
  fst (call_on_step (search_step_handler context) n 0) = n /\
  progress_values (perform_search eng rid search_term task context) = seq 1 n /\
  (exists rest, perform_search eng rid search_term task context =
                (flat_map (search_step_notices context) (seq 1 n) ++ rest)%list
                /\ progress_values rest = []) /\
  fst (call_on_step (order_step_handler context') n' 0) = n' /\
  progress_values (fst (perform_order eng url item_name task' context')) = seq 1 n' /\
  (exists rest, fst (perform_order eng url item_name task' context') =
                (flat_map (order_step_notices context') (seq 1 n') ++ rest)%list
                /\ progress_values rest = []).
Proof.
  intros n n'. split; [|split; [|split; [|split; [|split]]]].
  - rewrite (call_on_step_spec (search_step_notices context)) by apply search_step_handler_spec.
    simpl. lia.
  - rewrite perform_search_unfold, progress_values_app, progress_values_search_steps.
    destruct (agent_result (eng task)); simpl; by rewrite app_nil_r.
  - rewrite perform_search_unfold. eexists. split; [reflexivity|].
    by destruct (agent_result (eng task)).
  - rewrite (call_on_step_spec (order_step_notices context')) by apply order_step_handler_spec.
    simpl. lia.
  - rewrite perform_order_unfold, progress_values_app, progress_values_order_steps.
    destruct (agent_result (eng task')); simpl; by rewrite app_nil_r.
  - rewrite perform_order_unfold. eexists. split; [reflexivity|].
    by destruct (agent_result (eng task')).
Qed.

(** * C6 (confirmed): when the engine returns [T], [perform_search] makes
    its one write [T] under the request id; a retrieval never changes the
    state, and once [T] is stored and the id is not reused, every later
    [get_search_results_by_id] of the id returns exactly [T]. *)
Theorem C6_success_idempotent_read (eng : engine) (rid search_term task : string)
  (context : Context) (T : string) :
  agent_result (eng task) = Returns T ->
  let acts := perform_search eng rid search_term task context in
  write_count acts = 1 /\
  (forall s, search_results (exec_all acts s) !! rid = Some T) /\
  (forall s, snd (handle_call (CGetSearchResultsById rid) s) = s) /\
  (forall s ls s',
     search_results s !! rid = Some T ->
     no_pending_write rid s ->
     steps s ls s' ->
     (forall c, c ∈ calls_of ls -> searched_id c <> Some rid) ->
     get_search_results_by_id rid s' = T /\
     forall r, LCall (CGetSearchResultsById rid) r ∈ ls -> r = RStr T).
Proof.
  intros Hres acts. split; [|split; [|split]].
  - unfold acts. rewrite perform_search_unfold, write_count_app, search_steps_no_write, Hres.
    done.
  - intros s. unfold acts. rewrite exec_all_perform_search, Hres. by rewrite lookup_insert_eq.
  - done.
  - intros s ls s' Hv Hnw Hsteps Hcalls.
    destruct (steps_persist _ _ _ _ _ Hsteps Hv Hnw Hcalls) as [Hv' Hr].
    split.
    + unfold get_search_results_by_id. by rewrite Hv'.
    + intros r Hin. eapply Hr; [exact Hin|by left].
Qed.

Lemma C6_success_idempotent_read_witness :
  agent_result (eng_ok (search_task "pizza")) = Returns "Pizza, $9" /\
  write_count (perform_search eng_ok "1" "pizza" (search_task "pizza") ctx1) = 1.
Proof.
  split; [reflexivity|].
  exact (proj1 (C6_success_idempotent_read eng_ok "1" "pizza" (search_task "pizza") ctx1
                  "Pizza, $9" eq_refl)).
Defined.

Lemma searched_dispatched (c : call) (k : string) :
  searched_id c = Some k -> dispatched_id c = Some k.
Proof. by destruct c. Qed.

(** * C7 (confirmed): in every run from startup, for a request id that no
    [find_menu_options] or [order_food] call has used, the resource returns
    ["No search results found for request ID: " + id], the tool returns that
    text with its retry hint, both total (no exception), and neither is a
    pending message. *)
Theorem C7_unknown_identity (ls : list label) (s : sys) (rid : string) :
  steps init ls s ->
  (forall c, c ∈ calls_of ls -> dispatched_id c <> Some rid) ->
  get_search_results rid s = resource_not_found rid /\
  get_search_results_by_id rid s = tool_not_found rid /\
  (forall t, resource_not_found rid <> pending_msg t /\ tool_not_found rid <> pending_msg t).
Proof.
  intros Hsteps Hnot.
  destruct (steps_tasks_write_known _ _ _ Hsteps init_tasks_write_known) as [_ Hdom].
  assert (Hnone : search_results s !! rid = None).
  { apply eq_None_not_Some. rewrite Hdom. simpl. rewrite lookup_empty.
    intros [H|(c & Hc & Hs)]; [by destruct H|].
    apply (Hnot c Hc). by apply searched_dispatched. }
  unfold get_search_results, get_search_results_by_id. rewrite Hnone.
  split; [done|split; [done|]]. intros t. split.
  - apply resource_not_found_not_pending.
  - apply tool_not_found_not_pending.
Qed.

Lemma C7_unknown_identity_witness :
  let c := CFindMenuOptions eng_ok "pizza" ctx1 in
  let s := snd (handle_call c init) in
  steps init [LCall c (fst (handle_call c init))] s /\
  get_search_results_by_id "2" s = tool_not_found "2".
Proof.
  intros c s.
  assert (Hs : steps init [LCall c (fst (handle_call c init))] s).
  { econstructor; [apply step_call|apply steps_refl]. }
  split; [exact Hs|].
  refine (proj1 (proj2 (C7_unknown_identity _ s "2" Hs _))).
  intros c' Hc'. simpl in Hc'. rewrite elem_of_cons, elem_of_nil in Hc'.
  destruct Hc' as [->|[]]. discriminate.
Defined.

(** * C8 (corrected), counterexample: on a fresh process the resource and
    the tool answer differently for the unknown id ["1"]. *)
Lemma C8_retrievals_differ :
  get_search_results "1" init <> get_search_results_by_id "1" init.
Proof. vm_compute. discriminate. Qed.

(** * C8 (corrected, amended): the resource [resource://search_results/{id}]
    and the tool [get_search_results_by_id] return the same stored string
    when the id is in [search_results]; for an absent id both return
    ["No search results found for request ID: " + id], the tool followed
    by its retry hint. *)
Theorem C8_retrievals_agree_on_stored (rid : string) (s : sys) :
  (is_Some (search_results s !! rid) -> get_search_results rid s = get_search_results_by_id rid s) /\
  (search_results s !! rid = None ->
     get_search_results rid s = resource_not_found rid /\
     get_search_results_by_id rid s = resource_not_found rid ++ tool_not_found_hint).
Proof.
  unfold get_search_results, get_search_results_by_id. split.
  - intros [v ->]. done.
  - intros ->. split; [done|]. unfold tool_not_found, resource_not_found.
    by rewrite str_app_assoc.
Qed.

Lemma C8_retrievals_agree_on_stored_witness :
  is_Some (search_results (snd (find_menu_options eng_ok "pizza" ctx1 init)) !! "1") /\
  get_search_results "1" (snd (find_menu_options eng_ok "pizza" ctx1 init)) =
  get_search_results_by_id "1" (snd (find_menu_options eng_ok "pizza" ctx1 init)).
Proof.
  assert (H : is_Some (search_results (snd (find_menu_options eng_ok "pizza" ctx1 init)) !! "1")).
  { eexists. reflexivity. }
  split; [exact H|].
  exact (proj1 (C8_retrievals_agree_on_stored "1" _) H).
Defined.

(** * C9 (confirmed): a dispatch only queues its runner: the acknowledgement
    of [find_menu_options] and of [order_food] does not depend on the engine,
    no notice is sent, and the whole runner, none of it executed, is appended
    to the event loop's task queue; the only store change is the pending
    entry of [find_menu_options]. *)
Theorem C9_dispatch_not_blocking (eng eng' : engine) (search_term url item_name : string)
  (context : Context) (s : sys) :
  fst (handle_call (CFindMenuOptions eng search_term context) s) =
  fst (handle_call (CFindMenuOptions eng' search_term context) s) /\
  channel (snd (handle_call (CFindMenuOptions eng search_term context) s)) = channel s /\
  tasks (snd (handle_call (CFindMenuOptions eng search_term context) s)) =
  (tasks s ++ [perform_search eng (request_id context) search_term (search_task search_term) context])%list /\
  search_results (snd (handle_call (CFindMenuOptions eng search_term context) s)) =
  <[request_id context := pending_msg search_term]> (search_results s) /\
  fst (handle_call (COrderFood eng url item_name context) s) =
  fst (handle_call (COrderFood eng' url item_name context) s) /\
  channel (snd (handle_call (COrderFood eng url item_name context) s)) = channel s /\
  tasks (snd (handle_call (COrderFood eng url item_name context) s)) =
  (tasks s ++ [fst (perform_order eng url item_name (order_task url) context)])%list.
Proof. repeat split. Qed.

(** * C10 (confirmed): [order_food] leaves [search_results] unchanged, its
    runner [perform_order] contains no write to it, so no step of the runner
    changes it; the runner's return value (result text or error message) is
    dropped by [create_task]. *)
Theorem C10_order_store_untouched (eng : engine) (url item_name : string)
  (context : Context) (s : sys) :
  search_results (snd (handle_call (COrderFood eng url item_name context) s)) = search_results s /\
  write_count (fst (perform_order eng url item_name (order_task url) context)) = 0 /\
  (forall a, a ∈ fst (perform_order eng url item_name (order_task url) context) ->
     forall s', search_results (exec_action a s') = search_results s').
Proof.
  split; [done|]. split; [apply perform_order_no_write|].
  intros a Ha s'.
  destruct (write_count_0_notify _ a (perform_order_no_write _ _ _ _ _) Ha) as (r & n & ->).
  done.
Qed.

(** ** Further code of server.py *)

(** *** Logging filters (lines 8-30) *)

(** Python's [str.startswith(prefix)]. *)
Definition startswith (s prefix : string) : bool := String.prefix prefix s.

(** [class PatternFilter(logging.Filter)]. *)
Record PatternFilter := mkPatternFilter { pattern : string }.

(** [PatternFilter.filter]: keep the record unless its message starts with
    the pattern. *)
Definition PatternFilter_filter (self : PatternFilter) (message : string) : bool :=
  negb (startswith message (pattern self)).

(** [logging.Filterer.filter]: a record passes a logger when every filter
    attached to it keeps the record. *)
Definition filterer_filter (filters : list PatternFilter) (message : string) : bool :=
  forallb (fun f => PatternFilter_filter f message) filters.

Definition info_filter : PatternFilter := mkPatternFilter "INFO [".
Definition warning_filter : PatternFilter := mkPatternFilter "WARNING [".

(** Filters attached to each logger by lines 25-30. *)
Definition info_logger_filters : list PatternFilter := [info_filter].
Definition warning_logger_filters : list PatternFilter := [warning_filter].
Definition root_logger_filters : list PatternFilter := [info_filter; warning_filter].

(** *** Login status check (lines 134-167) *)

(** The [task] of [perform_check_login_status]. *)
Definition login_task : string :=
  nl ++ "1. Go to https://www.ubereats.com" ++ nl
  ++ "2. Check if the user is logged in by looking if the log in and sign up button are visible in the top right corner of the page" ++ nl
  ++ "3. If the user is logged in, return " ++ dq ++ "User is logged in" ++ dq ++ nl
  ++ "4. If the user is not logged in, return " ++ dq ++ "User is not logged in" ++ dq ++ nl.

(** The nested [step_handler] of [perform_check_login_status] (157-161). *)
Definition login_step_handler (context : Context) (step_count : nat)
  : nat * list action :=
  let step_count := S step_count in
  (step_count,
   [ANotify (request_id context)
      (NInfo ("Login status check step " ++ str_nat step_count ++ " completed"));
    ANotify (request_id context) (NProgress step_count)]).

(** [perform_check_login_status] (146-167): its effects and return value. *)
Definition perform_check_login_status (eng : engine) (context : Context)
  : list action * string :=
  let task := login_task in
  let step_count := 0 in
  let run := eng task in
  let '(_, steps) := call_on_step (login_step_handler context) (on_step_calls run) step_count in
  match agent_result run with
  | Returns result => (steps, result)
  | Raises e => (steps, "Error checking login status: " ++ e)
  end.

(** [check_login_status] (134-144); not registered as a tool. *)
Definition check_login_status (eng : engine) (context : Context) (s : sys) : string * sys :=
  let s1 := create_task (fst (perform_check_login_status eng context)) s in
  ("Checking login status...", s1).

Definition login_step_notices (context : Context) (k : nat) : list action :=
  [ANotify (request_id context)
     (NInfo ("Login status check step " ++ str_nat k ++ " completed"));
   ANotify (request_id context) (NProgress k)].

Definition is_error_notice (a : action) : bool :=
  match a with ANotify _ (NError _) => true | _ => false end.

(** ** Properties of the further code *)

Lemma prefix_iff (p s : string) :
  String.prefix p s = true <-> exists r, s = p ++ r.
Proof.
  revert s. induction p as [|a p IH]; intros s.
  - split; [intros _; by exists s|intros _; by destruct s].
  - destruct s as [|b s]; simpl.
    + split; [discriminate|intros [r Hr]; discriminate Hr].
    + destruct (Ascii.ascii_dec a b) as [->|Hne].
      * rewrite IH. split; intros [r Hr]; exists r.
        -- rewrite Hr. reflexivity.
        -- injection Hr as Hr. exact Hr.
      * split; [discriminate|]. intros [r Hr]. injection Hr as Hab _. congruence.
Qed.

(** X1: [PatternFilter.filter] drops a message exactly when the message
    starts with the filter's pattern. *)
Theorem PatternFilter_filter_drops_prefix (f : PatternFilter) (message : string) :
  PatternFilter_filter f message = false <-> exists rest, message = pattern f ++ rest.
Proof.
  unfold PatternFilter_filter, startswith. rewrite <- prefix_iff.
  destruct (String.prefix (pattern f) message); simpl; split; congruence.
Qed.

(** X2: a record logged on the root logger passes its filters exactly when
    its message starts neither with ["INFO ["] nor with ["WARNING ["]; the
    ["INFO"] logger drops only the former and the ["WARNING"] logger only
    the latter. *)
Theorem root_logger_filters_spec (message : string) :
  (filterer_filter root_logger_filters message = true <->
     (~ exists r, message = "INFO [" ++ r) /\ (~ exists r, message = "WARNING [" ++ r)) /\
  (filterer_filter info_logger_filters message = true <-> ~ exists r, message = "INFO [" ++ r) /\
  (filterer_filter warning_logger_filters message = true <->
     ~ exists r, message = "WARNING [" ++ r).
Proof.
  assert (Hkeep : forall f, PatternFilter_filter f message = true <->
                            ~ exists r, message = pattern f ++ r).
  { intros f. rewrite <- PatternFilter_filter_drops_prefix.
    destruct (PatternFilter_filter f message); split; congruence. }
  unfold filterer_filter, root_logger_filters, info_logger_filters, warning_logger_filters.
  simpl. rewrite !andb_true_r, andb_true_iff.
  rewrite (Hkeep info_filter), (Hkeep warning_filter). done.
Qed.

Lemma login_step_handler_spec (context : Context) (c : nat) :
  login_step_handler context c = (S c, login_step_notices context (S c)).
Proof. reflexivity. Qed.

Lemma perform_check_login_status_unfold (eng : engine) (context : Context) :
  perform_check_login_status eng context =
  (flat_map (login_step_notices context) (seq 1 (on_step_calls (eng login_task))),
   match agent_result (eng login_task) with
   | Returns result => result
   | Raises e => "Error checking login status: " ++ e
   end).
Proof.
  unfold perform_check_login_status.
  rewrite (call_on_step_spec (login_step_notices context)) by apply login_step_handler_spec.
  by destruct (agent_result (eng login_task)).
Qed.

Lemma login_steps_no_write (context : Context) (ks : list nat) :
  write_count (flat_map (login_step_notices context) ks) = 0.
Proof.
  apply write_count_notices. intros k a Ha.
  unfold login_step_notices in Ha. set_solver.
Qed.

Lemma progress_values_login_steps (context : Context) (ks : list nat) :
  progress_values (flat_map (login_step_notices context) ks) = ks.
Proof. induction ks as [|k ks IH]; simpl; by rewrite ?IH. Qed.

(** X3: [check_login_status] answers ["Checking login status..."] and only
    queues [perform_check_login_status]; that runner, on success and on
    failure alike, never writes [search_results] and never sends an error
    notice: a failure only becomes its discarded return value
    ["Error checking login status: " + message]. *)
Theorem check_login_status_no_store_no_error (eng : engine) (context : Context) (s : sys) :
  let runner := fst (perform_check_login_status eng context) in
  fst (check_login_status eng context s) = "Checking login status..." /\
  search_results (snd (check_login_status eng context s)) = search_results s /\
  channel (snd (check_login_status eng context s)) = channel s /\
  tasks (snd (check_login_status eng context s)) = (tasks s ++ [runner])%list /\
  (forall s', search_results (exec_all runner s') = search_results s') /\
  (forall a, a ∈ runner -> is_error_notice a = false) /\
  (forall e, agent_result (eng login_task) = Raises e ->
     snd (perform_check_login_status eng context) = "Error checking login status: " ++ e).
Proof.
  intros runner. split; [done|]. split; [done|]. split; [done|]. split; [done|].
  split; [|split].
  - intros s'. apply exec_all_no_write. unfold runner.
    rewrite perform_check_login_status_unfold. apply login_steps_no_write.
  - intros a. unfold runner. rewrite perform_check_login_status_unfold. simpl.
    generalize (seq 1 (on_step_calls (eng login_task))) as ks.
    induction ks as [|k ks IH]; simpl; [set_solver|].
    rewrite !elem_of_cons. intros [->|[->|Ha]]; [done|done|by apply IH].
  - intros e He. rewrite perform_check_login_status_unfold, He. done.
Qed.

(** X4: in one run of [perform_check_login_status] whose engine calls
    [on_step] [n] times, the runner's notices are exactly, for [k = 1 .. n],
    ["Login status check step k completed"] followed by progress [k]. *)
Theorem login_step_progress (eng : engine) (context : Context) :
  let n := on_step_calls (eng login_task) in
  fst (call_on_step (login_step_handler context) n 0) = n /\
  fst (perform_check_login_status eng context) = flat_map (login_step_notices context) (seq 1 n) /\
  progress_values (fst (perform_check_login_status eng context)) = seq 1 n.
Proof.
  intros n. split; [|split].
  - rewrite (call_on_step_spec (login_step_notices context)) by apply login_step_handler_spec.
    simpl. lia.
  - by rewrite perform_check_login_status_unfold.
  - rewrite perform_check_login_status_unfold. simpl. apply progress_values_login_steps.
Qed.

(** *** Runs of the event loop *)

(** The store part of [exec_all]. *)
Fixpoint apply_writes (t : list action) (m : gmap string string) : gmap string string :=
  match t with
  | [] => m
  | AWrite k v :: t' => apply_writes t' (<[k := v]> m)
  | ANotify _ _ :: t' => apply_writes t' m
  end.

Lemma exec_all_store (t : list action) (s : sys) :
  search_results (exec_all t s) = apply_writes t (search_results s).
Proof. revert s. induction t as [|[] t IH]; intros s; simpl; [reflexivity|rewrite IH; reflexivity|rewrite IH; reflexivity]. Qed.

Lemma exec_all_tasks (t : list action) (s : sys) : tasks (exec_all t s) = tasks s.
Proof. revert s. induction t as [|[] t IH]; intros s; simpl; rewrite ?IH; auto. Qed.

Lemma apply_writes_other (t : list action) (m : gmap string string) (k : string) :
  ~ writes_key k t -> apply_writes t m !! k = m !! k.
Proof.
  revert m. induction t as [|[r n|k' v] t IH]; intros m Hw; simpl; [done| |].
  - apply IH. intros (v & Hv). apply Hw. exists v. set_solver.
  - rewrite IH.
    + rewrite lookup_insert_ne; [done|]. intros ->. apply Hw. exists v. set_solver.
    + intros (v' & Hv). apply Hw. exists v'. set_solver.
Qed.

(** Running the whole task [t] from its place in the queue. *)
Lemma steps_run_task (t : list action) (s : sys) (l1 l2 : list (list action)) :
  tasks s = (l1 ++ t :: l2)%list ->
  steps s (map LTask t)
    (exec_all t (mkSys (search_results s) (channel s) (l1 ++ [] :: l2)%list)).
Proof.
  revert s. induction t as [|a t IH]; intros s Ht; simpl.
  - destruct s as [m c ts]; simpl in *. subst ts. apply steps_refl.
  - econstructor; [by apply step_task|].
    assert (Heq : exec_action a (mkSys (search_results s) (channel s) (l1 ++ [] :: l2)%list) =
                  mkSys (search_results (exec_action a (mkSys (search_results s) (channel s) (l1 ++ t :: l2)%list)))
                        (channel (exec_action a (mkSys (search_results s) (channel s) (l1 ++ t :: l2)%list)))
                        (l1 ++ [] :: l2)%list) by (by destruct a).
    rewrite Heq. apply IH. by destruct a.
Qed.

Lemma steps_app (s1 s2 s3 : sys) (ls1 ls2 : list label) :
  steps s1 ls1 s2 -> steps s2 ls2 s3 -> steps s1 (ls1 ++ ls2) s3.
Proof. induction 1; simpl; [done|]. intros H23. econstructor; eauto. Qed.

Lemma drain_from (l2 l1 : list (list action)) (s : sys) :
  tasks s = (l1 ++ l2)%list ->
  exists ls s', steps s ls s' /\ (forall l, l ∈ ls -> exists a, l = LTask a) /\
    tasks s' = (l1 ++ replicate (length l2) [])%list /\
    search_results s' = foldl (fun m t => apply_writes t m) (search_results s) l2.
Proof.
  revert l1 s. induction l2 as [|t l2 IH]; intros l1 s Ht.
  - exists [], s. split; [apply steps_refl|]. split; [set_solver|]. by rewrite Ht.
  - pose proof (steps_run_task t s l1 l2 Ht) as Hrun.
    set (s1 := exec_all t (mkSys (search_results s) (channel s) (l1 ++ [] :: l2)%list)) in *.
    destruct (IH (l1 ++ [[]])%list s1) as (ls & s' & Hst & Hlab & Hts & Hm).
    { unfold s1. rewrite exec_all_tasks. simpl. by rewrite <- app_assoc. }
    exists (map LTask t ++ ls)%list, s'. split; [by eapply steps_app|]. split.
    + intros l Hl. rewrite elem_of_app in Hl. destruct Hl as [Hl|Hl]; [|by apply Hlab].
      apply list_elem_of_In, in_map_iff in Hl as (a & <- & _). by exists a.
    + split.
      * rewrite Hts. simpl. by rewrite <- app_assoc.
      * rewrite Hm. unfold s1. by rewrite exec_all_store.
Qed.

Lemma foldl_apply_writes_other (ts : list (list action)) (m : gmap string string) (k : string) :
  (forall t, t ∈ ts -> ~ writes_key k t) ->
  foldl (fun m t => apply_writes t m) m ts !! k = m !! k.
Proof.
  revert m. induction ts as [|t ts IH]; intros m Hw; simpl; [done|].
  rewrite IH by set_solver. apply apply_writes_other. set_solver.
Qed.

Lemma apply_writes_perform_search (eng : engine) (rid search_term task : string)
  (context : Context) (m : gmap string string) :
  apply_writes (perform_search eng rid search_term task context) m =
  <[rid := search_outcome (agent_result (eng task))]> m.
Proof.
  rewrite <- (exec_all_store _ (mkSys m [] [])).
  by rewrite exec_all_perform_search.
Qed.

Lemma calls_of_app (ls1 ls2 : list label) :
  calls_of (ls1 ++ ls2) = (calls_of ls1 ++ calls_of ls2)%list.
Proof.
  induction ls1 as [|l ls1 IH]; [done|].
  change ((l :: ls1) ++ ls2)%list with (l :: (ls1 ++ ls2))%list.
  rewrite !calls_of_cons, IH. by destruct l.
Qed.

Lemma calls_of_tasks (t : list action) : calls_of (map LTask t) = [].
Proof.
  induction t as [|a t IH]; [done|].
  change (map LTask (a :: t)) with (LTask a :: map LTask t).
  rewrite calls_of_cons. exact IH.
Qed.

(** X5: from any state the event loop can run every queued task to its
    end, with no client call in between; afterwards the entry of a request
    id whose [perform_search] was queued, and which no other queued task
    writes, holds the engine's text or ["Error: " + message]. *)
Theorem event_loop_drains (s : sys) :
  exists ls s', steps s ls s' /\ (forall l, l ∈ ls -> exists a, l = LTask a) /\
    (forall t, t ∈ tasks s' -> t = []) /\
    (forall eng rid search_term task context l1 l2,
       tasks s = (l1 ++ perform_search eng rid search_term task context :: l2)%list ->
       (forall t, t ∈ (l1 ++ l2)%list -> ~ writes_key rid t) ->
       search_results s' !! rid = Some (search_outcome (agent_result (eng task)))).
Proof.
  destruct (drain_from (tasks s) [] s eq_refl) as (ls & s' & Hst & Hlab & Hts & Hm).
  exists ls, s'. split; [done|]. split; [done|]. split.
  - intros t Ht. rewrite Hts in Ht. simpl in Ht.
    by apply elem_of_replicate in Ht as [-> _].
  - intros eng rid search_term task context l1 l2 Htasks Hw.
    rewrite Hm, Htasks, foldl_app. simpl.
    rewrite foldl_apply_writes_other by set_solver.
    by rewrite apply_writes_perform_search, lookup_insert_eq.
Qed.

(** X6: [search_results] keeps no record of which dispatch an id's entry
    comes from: for any two [find_menu_options] calls with the same request
    id, some run from startup ends with the id holding the outcome of the
    FIRST call's engine, written by its runner after the second one's. *)
Theorem stale_runner_overwrites (eng1 eng2 : engine) (t1 t2 : string) (context : Context) :
  exists ls s, steps init ls s /\
    calls_of ls = [CFindMenuOptions eng1 t1 context; CFindMenuOptions eng2 t2 context] /\
    search_results s !! request_id context =
      Some (search_outcome (agent_result (eng1 (search_task t1)))).
Proof.
  set (c1 := CFindMenuOptions eng1 t1 context).
  set (c2 := CFindMenuOptions eng2 t2 context).
  set (s1 := snd (handle_call c1 init)).
  set (s2 := snd (handle_call c2 s1)).
  set (p1 := perform_search eng1 (request_id context) t1 (search_task t1) context).
  set (p2 := perform_search eng2 (request_id context) t2 (search_task t2) context).
  assert (H2 : tasks s2 = ([p1] ++ p2 :: [])%list) by reflexivity.
  pose proof (steps_run_task p2 s2 [p1] [] H2) as Hr2.
  set (s3 := exec_all p2 (mkSys (search_results s2) (channel s2) ([p1] ++ [] :: [])%list)) in *.
  assert (H3 : tasks s3 = ([] ++ p1 :: [[]])%list) by (unfold s3; by rewrite exec_all_tasks).
  pose proof (steps_run_task p1 s3 [] [[]] H3) as Hr1.
  eexists. eexists. split; [|split].
  - eapply steps_cons; [apply (step_call init c1)|].
    eapply steps_cons; [apply (step_call s1 c2)|].
    eapply steps_app; [exact Hr2|exact Hr1].
  - rewrite !calls_of_cons, calls_of_app, !calls_of_tasks. reflexivity.
  - rewrite exec_all_store. simpl. unfold p1.
    by rewrite apply_writes_perform_search, lookup_insert_eq.
Qed.

Lemma step_monotone (s s' : sys) (l : label) :
  step s l s' ->
  (forall k, is_Some (search_results s !! k) -> is_Some (search_results s' !! k)) /\
  exists new, channel s' = (channel s ++ new)%list.
Proof.
  intros Hstep. destruct Hstep as [s c|s l1 l2 a t Htasks].
  - destruct c as [eng term ctx|eng url name ctx|rid|rid|]; simpl;
      (split; [|exists []; by rewrite app_nil_r]); try done.
    intros k Hk. destruct (decide (k = request_id ctx)) as [->|Hne].
    + rewrite lookup_insert_eq. by eexists.
    + by rewrite lookup_insert_ne by congruence.
  - destruct a as [rid n|k v]; cbn [exec_action search_results channel].
    + split; [done|]. by eexists.
    + split; [|exists []; by rewrite app_nil_r].
      intros k' Hk. destruct (decide (k' = k)) as [->|Hne].
      * rewrite lookup_insert_eq. by eexists.
      * by rewrite lookup_insert_ne by congruence.
Qed.

(** X7: along any run of the server no key of [search_results] is ever
    removed, and the notices already sent on the side channel are never
    changed: later ones are only appended. *)
Theorem run_monotone (s s' : sys) (ls : list label) :
  steps s ls s' ->
  (forall k, is_Some (search_results s !! k) -> is_Some (search_results s' !! k)) /\
  exists new, channel s' = (channel s ++ new)%list.
Proof.
  induction 1 as [s|s s1 s2 l ls Hstep Hsteps IH].
  - split; [done|]. exists []. by rewrite app_nil_r.
  - destruct (step_monotone _ _ _ Hstep) as [Hk1 [n1 Hc1]].
    destruct IH as [Hk2 [n2 Hc2]]. split; [naive_solver|].
    exists (n1 ++ n2)%list. by rewrite Hc2, Hc1, app_assoc.
Qed.


(** X8: the runners do not touch each other's entries: every effect of a
    [perform_search] for id [rid] leaves the entry of every other id as it
    was, and no effect of [perform_order] or [perform_check_login_status]
    changes [search_results] at all. *)
Theorem runner_isolation (eng : engine) (rid search_term task url item_name task' : string)
  (context context' : Context) :
  (forall a, a ∈ perform_search eng rid search_term task context ->
     forall s k, k <> rid -> search_results (exec_action a s) !! k = search_results s !! k) /\
  (forall a, a ∈ fst (perform_order eng url item_name task' context') ->
     forall s, search_results (exec_action a s) = search_results s) /\
  (forall a, a ∈ fst (perform_check_login_status eng context') ->
     forall s, search_results (exec_action a s) = search_results s).
Proof.
  split; [|split].
  - intros a Ha s k Hk. destruct a as [r n|k' v]; [done|].
    apply perform_search_writes in Ha as [-> _]. simpl.
    by rewrite lookup_insert_ne by congruence.
  - intros a Ha s.
    destruct (write_count_0_notify _ a (perform_order_no_write _ _ _ _ _) Ha) as (r & n & ->).
    done.
  - intros a Ha s.
    assert (H0 : write_count (fst (perform_check_login_status eng context')) = 0).
    { rewrite perform_check_login_status_unfold. apply login_steps_no_write. }
    destruct (write_count_0_notify _ a H0 Ha) as (r & n & ->). done.
Qed.

Lemma run_monotone_witness :
  let c := CFindMenuOptions eng_ok "pizza" ctx1 in
  let s := snd (handle_call c init) in
  steps init [LCall c (fst (handle_call c init))] s /\
  exists new, channel s = (channel init ++ new)%list.
Proof.
  intros c s.
  assert (Hs : steps init [LCall c (fst (handle_call c init))] s).
  { econstructor; [apply step_call|apply steps_refl]. }
  split; [exact Hs|].
  exact (proj2 (run_monotone _ _ _ Hs)).
Defined.
